(** * godel-with-comp.py: the builtins of mu-lang and its standard library

    A shallow embedding of [src/godel-with-comp.py].

    Values are natural numbers ([nat]): the program only ever builds numbers
    from [0] with [n+1], and its single subtraction, [n-1] inside [rec], sits
    behind the test [n == 0].

    A Python callable with a starred parameter is a function from the list of its
    positional arguments to a computation.  A computation can return a value,
    raise (a call at the wrong number of arguments, an index out of range) or
    run forever; the last is the [while True] of [mu], which is unrolled a
    bounded number of times, the bound being the fuel the computation reads.
    The call stack is unbounded: [rec] recurses as deep as its first
    argument. *)

From Stdlib Require Import Arith.Arith Arith.PeanoNat Lists.List micromega.Lia Bool.Bool.
Import ListNotations.

(** ** Computations *)

Inductive exn : Type :=
| TypeError    (* a callable applied to the wrong number of arguments *)
| IndexError.  (* [args[i]] with [i] out of range *)

Inductive outcome (A : Type) : Type :=
| Val (a : A)
| Raise (e : exn)
| OutOfFuel.

Arguments Val {A} a.
Arguments Raise {A} e.
Arguments OutOfFuel {A}.

(** A computation reads the number of iterations every [while] loop below it
    may take. *)
Definition M (A : Type) : Type := nat -> outcome A.

Definition ret {A} (a : A) : M A := fun _ => Val a.

Definition raise {A} (e : exn) : M A := fun _ => Raise e.

Definition timeout {A} : M A := fun _ => OutOfFuel.

Definition bind {A B} (m : M A) (k : A -> M B) : M B :=
  fun fuel =>
    match m fuel with
    | Val a => k a fuel
    | Raise e => Raise e
    | OutOfFuel => OutOfFuel
    end.

Notation "x <- m ;; k" := (bind m (fun x => k))
  (at level 61, m at next level, right associativity).

(** A function value: a callable over its positional arguments. *)
Definition fn : Type := list nat -> M nat.

(** [lambda x: body] and [lambda x, y: body] (also [def f(x)], [def f(x, y)]):
    any other number of arguments is a [TypeError]. *)
Definition lam1 (body : nat -> M nat) : fn :=
  fun args =>
    match args with
    | [x] => body x
    | _ => raise TypeError
    end.

Definition lam2 (body : nat -> nat -> M nat) : fn :=
  fun args =>
    match args with
    | [x; y] => body x y
    | _ => raise TypeError
    end.

(** The generator [h(args...) for h in hs] unpacked into the call of [f]: it
    is drained from left to right before [f] is entered, and stops at the
    first [h] that does not return. *)
Fixpoint call_all (hs : list fn) (args : list nat) : M (list nat) :=
  match hs with
  | [] => ret []
  | h :: hs' =>
      x <- h args ;;
      xs <- call_all hs' args ;;
      ret (x :: xs)
  end.

(** What a computation does, over all amounts of fuel. *)
Definition returns {A} (m : M A) (a : A) : Prop :=
  exists fuel0, forall fuel, fuel0 <= fuel -> m fuel = Val a.

Definition raises {A} (m : M A) (e : exn) : Prop :=
  exists fuel0, forall fuel, fuel0 <= fuel -> m fuel = Raise e.

Definition diverges {A} (m : M A) : Prop :=
  forall fuel, m fuel = OutOfFuel.

(** More fuel never changes an outcome that was reached. *)
Definition stable {A} (m : M A) : Prop :=
  forall fuel fuel', fuel <= fuel' -> m fuel <> OutOfFuel -> m fuel' = m fuel.

Definition stable_fn (f : fn) : Prop := forall args, stable (f args).

(** ** The program *)

Module Godel.

(** *** The built-in functions of mu-lang *)

(** [def zero(n)], line 9; rebound by [zero = const(0)] before any use. *)
Definition zero_builtin : fn := lam1 (fun n => ret 0).

Definition incr : fn := lam1 (fun n => ret (n + 1)).

(** [proj]: [args[i]], for an index [i] counted from the front. *)
Definition proj (i : nat) (args : list nat) : M nat :=
  match nth_error args i with
  | Some x => ret x
  | None => raise IndexError
  end.

Definition comp (f : fn) (hs : list fn) : fn :=
  fun args =>
    xs <- call_all hs args ;;
    f xs.

(** [rec(f, g)]: the inner [h] takes [n] and then the starred [xs], so it
    needs one argument at least. *)
Fixpoint rec_h (f g : fn) (n : nat) (xs : list nat) : M nat :=
  match n with
  | 0 => f xs
  | S n' =>
      r <- rec_h f g n' xs ;;
      g (n' :: r :: xs)
  end.

Definition rec (f g : fn) : fn :=
  fun args =>
    match args with
    | [] => raise TypeError
    | n :: xs => rec_h f g n xs
    end.

(** The loop of [mu] from the counter [n] on, unrolled [iters] times. *)
Fixpoint mu_loop (p : fn) (xs : list nat) (n : nat) (iters : nat) : M nat :=
  match iters with
  | 0 => timeout
  | S iters' =>
      r <- p (n :: xs) ;;
      if r =? 0 then ret n else mu_loop p xs (n + 1) iters'
  end.

Definition mu (p : fn) : fn :=
  fun xs fuel => mu_loop p xs 0 fuel fuel.

(** *** The standard library *)

Definition const (k : nat) : fn := fun xs => ret k.

Definition mkproj (i : nat) : fn := fun xs => proj i xs.

Definition zero : fn := const 0.
Definition one : fn := const 1.

Definition id : fn := lam1 (fun x => proj 0 [x]).

Definition pred : fn := rec zero (lam2 (fun n y => ret n)).

Definition add_base : fn := id.
Definition add_step : fn := comp incr [mkproj 1].
Definition add_raw : fn := rec add_base add_step.
Definition add : fn := lam2 (fun x y => add_raw [y; x]).

Definition mul_base : fn := zero.
Definition mul_step : fn := comp add [mkproj 1; mkproj 2].
Definition mul_raw : fn := rec mul_base mul_step.
Definition mul : fn := lam2 (fun x y => mul_raw [y; x]).

Definition exp_base : fn := one.
Definition exp_step : fn := comp mul [mkproj 1; mkproj 2].
Definition exp_raw : fn := rec exp_base exp_step.
Definition exp : fn := lam2 (fun x y => exp_raw [y; x]).

Definition sub_base : fn := id.
Definition sub_step : fn := comp pred [mkproj 1].
Definition sub_raw : fn := rec sub_base sub_step.
Definition sub : fn := lam2 (fun x y => sub_raw [y; x]).

Definition is_zero : fn := rec one (comp zero []).

Definition sign : fn := rec zero (comp one []).

Definition leq : fn := comp is_zero [sub].

Definition eq : fn := comp mul [leq; comp leq [mkproj 1; mkproj 0]].

Definition neq : fn :=
  comp sign [comp sub [one; comp eq [mkproj 0; mkproj 1]]].

Definition max : fn := comp add [comp sub [mkproj 0; mkproj 1]; mkproj 1].
Definition min : fn :=
  comp sub [comp add [mkproj 0; mkproj 1]; comp max [mkproj 0; mkproj 1]].

Definition geq : fn := lam2 (fun x y => comp leq [mkproj 1; mkproj 0] [x; y]).

Definition lt : fn :=
  lam2 (fun x y => comp sign [comp sub [mkproj 1; mkproj 0]] [x; y]).

End Godel.

(** *** Predicates handed to [mu] *)

(** [lambda n: sub(n, 3)] *)
Definition sub_n_3 : fn := lam1 (fun n => Godel.sub [n; 3]).

(** [lambda n: sub(3, n)] *)
Definition sub_3_n : fn := lam1 (fun n => Godel.sub [3; n]).

(** [mu(comp(is_zero, mkproj(1)))]: as a predicate of one argument [n] it
    searches for a [k] with [is_zero(n) == 0]; no [k] does at [n = 0], and
    [k = 0] does at any other [n]. *)
Definition zero_after_0 : fn :=
  Godel.mu (Godel.comp Godel.is_zero [Godel.mkproj 1]).

(** The values [examples()] collects, in its order. *)
Definition examples : list (M nat) :=
  [ Godel.pred [0]; Godel.pred [5]; Godel.add [3; 4]; Godel.mul [3; 4];
    Godel.exp [2; 5]; Godel.sub [7; 10]; Godel.sub [10; 7];
    Godel.is_zero [0]; Godel.is_zero [9]; Godel.leq [3; 7]; Godel.leq [7; 3];
    Godel.eq [9; 9]; Godel.eq [9; 8] ].

(** ** Computations: outcomes over all fuel *)

Section Computations.
Context {A B : Type}.

Lemma bind_val (m : M A) (k : A -> M B) a fuel :
  m fuel = Val a -> bind m k fuel = k a fuel.
Proof. unfold bind; intros ->; reflexivity. Qed.

Lemma bind_raise (m : M A) (k : A -> M B) e fuel :
  m fuel = Raise e -> bind m k fuel = Raise e.
Proof. unfold bind; intros ->; reflexivity. Qed.

Lemma bind_out_of_fuel (m : M A) (k : A -> M B) fuel :
  m fuel = OutOfFuel -> bind m k fuel = OutOfFuel.
Proof. unfold bind; intros ->; reflexivity. Qed.

Lemma returns_ret (a : A) : returns (ret a) a.
Proof. exists 0; reflexivity. Qed.

Lemma returns_inj (m : M A) a a' : returns m a -> returns m a' -> a = a'.
Proof.
  intros [f1 H1] [f2 H2].
  specialize (H1 (Nat.max f1 f2) (Nat.le_max_l _ _)).
  specialize (H2 (Nat.max f1 f2) (Nat.le_max_r _ _)).
  congruence.
Qed.

Lemma returns_bind (m : M A) (k : A -> M B) a b :
  returns m a -> returns (k a) b -> returns (bind m k) b.
Proof.
  intros [f1 H1] [f2 H2]; exists (Nat.max f1 f2); intros fuel Hle.
  unfold bind; rewrite H1 by lia; apply H2; lia.
Qed.

Lemma diverges_not_returns (m : M A) a : diverges m -> ~ returns m a.
Proof. intros Hd [f0 H]; specialize (H f0 (Nat.le_refl _)); rewrite Hd in H; discriminate. Qed.

Lemma diverges_not_raises (m : M A) e : diverges m -> ~ raises m e.
Proof. intros Hd [f0 H]; specialize (H f0 (Nat.le_refl _)); rewrite Hd in H; discriminate. Qed.

Lemma diverges_bind (m : M A) (k : A -> M B) : diverges m -> diverges (bind m k).
Proof. intros Hd fuel; apply bind_out_of_fuel, Hd. Qed.

Lemma stable_returns (m : M A) a fuel :
  stable m -> m fuel = Val a -> returns m a.
Proof.
  intros Hs Hv; exists fuel; intros fuel' Hle.
  rewrite (Hs fuel fuel' Hle); [assumption | rewrite Hv; discriminate].
Qed.

Lemma stable_raises (m : M A) e fuel :
  stable m -> m fuel = Raise e -> raises m e.
Proof.
  intros Hs Hv; exists fuel; intros fuel' Hle.
  rewrite (Hs fuel fuel' Hle); [assumption | rewrite Hv; discriminate].
Qed.

Lemma stable_ret (a : A) : stable (ret a).
Proof. intros fuel fuel' _ _; reflexivity. Qed.

Lemma stable_raise (e : exn) : stable (@raise A e).
Proof. intros fuel fuel' _ _; reflexivity. Qed.

Lemma stable_bind (m : M A) (k : A -> M B) :
  stable m -> (forall a, stable (k a)) -> stable (bind m k).
Proof.
  intros Hm Hk fuel fuel' Hle Hne; unfold bind in *.
  destruct (m fuel) as [a | e |] eqn:E; try congruence.
  - rewrite (Hm fuel fuel' Hle), E by congruence. apply Hk; assumption.
  - rewrite (Hm fuel fuel' Hle), E by congruence. reflexivity.
Qed.
End Computations.

Create HintDb stable.
#[local] Hint Resolve stable_ret stable_raise stable_bind : stable.

(** ** The builtins, one call at a time *)

Section Builtins.
Import Godel.

Lemma call_all_vals (hs : list fn) (args vs : list nat) fuel :
  Forall2 (fun h v => h args fuel = Val v) hs vs ->
  call_all hs args fuel = Val vs.
Proof.
  induction 1 as [| h v hs vs Hh _ IH]; [reflexivity |].
  cbn [call_all]; unfold bind at 1; rewrite Hh.
  unfold bind at 1; rewrite IH; reflexivity.
Qed.

Lemma comp_vals (f : fn) (hs : list fn) (args vs : list nat) fuel :
  Forall2 (fun h v => h args fuel = Val v) hs vs ->
  comp f hs args fuel = f vs fuel.
Proof.
  intros H; unfold comp, bind; rewrite (call_all_vals _ _ _ _ H); reflexivity.
Qed.

Lemma rec_0 (f g : fn) xs fuel : rec f g (0 :: xs) fuel = f xs fuel.
Proof. reflexivity. Qed.

Lemma rec_S (f g : fn) n xs fuel :
  rec f g (S n :: xs) fuel =
  (r <- rec f g (n :: xs) ;; g (n :: r :: xs)) fuel.
Proof. reflexivity. Qed.

Lemma rec_S_val (f g : fn) n r xs fuel :
  rec f g (n :: xs) fuel = Val r ->
  rec f g (S n :: xs) fuel = g (n :: r :: xs) fuel.
Proof. intros H; rewrite rec_S; unfold bind; rewrite H; reflexivity. Qed.

Lemma mkproj_nth (i : nat) (args : list nat) x fuel :
  nth_error args i = Some x -> mkproj i args fuel = Val x.
Proof. unfold mkproj, proj; intros ->; reflexivity. Qed.
End Builtins.

(** ** The standard library computes the arithmetic it is named after *)

Module GodelSpec.
Import Godel.

Lemma pred_spec n fuel : pred [n] fuel = Val (Nat.pred n).
Proof.
  unfold pred; destruct n as [| n]; [reflexivity |].
  assert (H : forall k, exists r, rec zero (lam2 (fun n0 _ => ret n0)) [k] fuel = Val r).
  { induction k as [| k [r IH]]; [exists 0; reflexivity |].
    exists k; rewrite (rec_S_val _ _ _ _ _ _ IH); reflexivity. }
  destruct (H n) as [r Hr]; rewrite (rec_S_val _ _ _ _ _ _ Hr); reflexivity.
Qed.

Lemma add_raw_spec y x fuel : add_raw [y; x] fuel = Val (x + y).
Proof.
  unfold add_raw; induction y as [| y IH].
  - rewrite rec_0, Nat.add_0_r; reflexivity.
  - rewrite (rec_S_val _ _ _ _ _ _ IH); unfold add_step.
    rewrite comp_vals with (vs := [x + y]).
    + unfold incr, lam1, ret; f_equal; lia.
    + repeat constructor.
Qed.

Lemma add_spec x y fuel : add [x; y] fuel = Val (x + y).
Proof. apply add_raw_spec. Qed.

Lemma mul_raw_spec y x fuel : mul_raw [y; x] fuel = Val (x * y).
Proof.
  unfold mul_raw; induction y as [| y IH].
  - rewrite rec_0, Nat.mul_0_r; reflexivity.
  - rewrite (rec_S_val _ _ _ _ _ _ IH); unfold mul_step.
    rewrite comp_vals with (vs := [x * y; x]) by (repeat constructor).
    rewrite add_spec; f_equal; lia.
Qed.

Lemma mul_spec x y fuel : mul [x; y] fuel = Val (x * y).
Proof. apply mul_raw_spec. Qed.

Lemma exp_raw_spec y x fuel : exp_raw [y; x] fuel = Val (x ^ y).
Proof.
  unfold exp_raw; induction y as [| y IH].
  - rewrite rec_0; reflexivity.
  - rewrite (rec_S_val _ _ _ _ _ _ IH); unfold exp_step.
    rewrite comp_vals with (vs := [x ^ y; x]) by (repeat constructor).
    rewrite mul_spec; f_equal; cbn [Nat.pow]; lia.
Qed.

Lemma exp_spec x y fuel : exp [x; y] fuel = Val (x ^ y).
Proof. apply exp_raw_spec. Qed.

Lemma sub_raw_spec y x fuel : sub_raw [y; x] fuel = Val (x - y).
Proof.
  unfold sub_raw; induction y as [| y IH].
  - rewrite rec_0, Nat.sub_0_r; reflexivity.
  - rewrite (rec_S_val _ _ _ _ _ _ IH); unfold sub_step.
    rewrite comp_vals with (vs := [x - y]) by (repeat constructor).
    rewrite pred_spec; f_equal; lia.
Qed.

Lemma sub_spec x y fuel : sub [x; y] fuel = Val (x - y).
Proof. apply sub_raw_spec. Qed.

Lemma is_zero_spec n fuel :
  is_zero [n] fuel = Val (match n with 0 => 1 | S _ => 0 end).
Proof.
  unfold is_zero; destruct n as [| n]; [reflexivity |].
  assert (H : exists r, rec one (comp zero []) [n] fuel = Val r).
  { induction n as [| n [r IH]]; [exists 1; reflexivity |].
    exists 0; rewrite (rec_S_val _ _ _ _ _ _ IH); reflexivity. }
  destruct H as [r Hr]; rewrite (rec_S_val _ _ _ _ _ _ Hr); reflexivity.
Qed.

Lemma sign_spec n fuel :
  sign [n] fuel = Val (match n with 0 => 0 | S _ => 1 end).
Proof.
  unfold sign; destruct n as [| n]; [reflexivity |].
  assert (H : exists r, rec zero (comp one []) [n] fuel = Val r).
  { induction n as [| n [r IH]]; [exists 0; reflexivity |].
    exists 1; rewrite (rec_S_val _ _ _ _ _ _ IH); reflexivity. }
  destruct H as [r Hr]; rewrite (rec_S_val _ _ _ _ _ _ Hr); reflexivity.
Qed.

Lemma leq_spec x y fuel :
  leq [x; y] fuel = Val (if x <=? y then 1 else 0).
Proof.
  unfold leq.
  rewrite comp_vals with (vs := [x - y]) by (repeat constructor; apply sub_spec).
  rewrite is_zero_spec.
  destruct (Nat.leb_spec x y) as [H | H].
  - replace (x - y) with 0 by lia; reflexivity.
  - destruct (x - y) eqn:E; [lia | reflexivity].
Qed.

Lemma eq_spec x y fuel :
  eq [x; y] fuel = Val (if x =? y then 1 else 0).
Proof.
  unfold eq.
  rewrite comp_vals with (vs := [if x <=? y then 1 else 0; if y <=? x then 1 else 0]).
  - rewrite mul_spec.
    destruct (Nat.leb_spec x y), (Nat.leb_spec y x), (Nat.eqb_spec x y);
      try reflexivity; lia.
  - repeat constructor; [apply leq_spec |].
    rewrite comp_vals with (vs := [y; x]) by (repeat constructor).
    apply leq_spec.
Qed.

Lemma neq_spec x y fuel :
  neq [x; y] fuel = Val (if x =? y then 0 else 1).
Proof.
  unfold neq.
  rewrite comp_vals with (vs := [1 - (if x =? y then 1 else 0)]).
  - rewrite sign_spec; destruct (x =? y); reflexivity.
  - repeat constructor.
    rewrite comp_vals with (vs := [1; if x =? y then 1 else 0]).
    + apply sub_spec.
    + repeat constructor.
      rewrite comp_vals with (vs := [x; y]) by (repeat constructor).
      apply eq_spec.
Qed.

Lemma max_spec x y fuel : max [x; y] fuel = Val (Nat.max x y).
Proof.
  unfold max.
  rewrite comp_vals with (vs := [x - y; y]).
  - rewrite add_spec; f_equal; lia.
  - repeat constructor.
    rewrite comp_vals with (vs := [x; y]) by (repeat constructor).
    apply sub_spec.
Qed.

Lemma min_spec x y fuel : min [x; y] fuel = Val (Nat.min x y).
Proof.
  unfold min.
  rewrite comp_vals with (vs := [x + y; Nat.max x y]).
  - rewrite sub_spec; f_equal; lia.
  - repeat constructor.
    + rewrite comp_vals with (vs := [x; y]) by (repeat constructor).
      apply add_spec.
    + rewrite comp_vals with (vs := [x; y]) by (repeat constructor).
      apply max_spec.
Qed.

Lemma geq_spec x y fuel :
  geq [x; y] fuel = Val (if y <=? x then 1 else 0).
Proof.
  unfold geq, lam2.
  rewrite comp_vals with (vs := [y; x]) by (repeat constructor).
  apply leq_spec.
Qed.

Lemma lt_spec x y fuel :
  lt [x; y] fuel = Val (if x <? y then 1 else 0).
Proof.
  unfold lt, lam2.
  rewrite comp_vals with (vs := [y - x]).
  - rewrite sign_spec.
    destruct (Nat.ltb_spec x y) as [H | H].
    + destruct (y - x) eqn:E; [lia | reflexivity].
    + replace (y - x) with 0 by lia; reflexivity.
  - repeat constructor.
    rewrite comp_vals with (vs := [y; x]) by (repeat constructor).
    apply sub_spec.
Qed.
End GodelSpec.

(** ** The search loop of [mu] *)

Section Minimisation.
Import Godel.
Variable p : fn.
Variable xs : list nat.

(** The loop finds a zero at [m] when every probe from the counter up to
    [m] came back non-zero and enough iterations are left. *)
Lemma mu_loop_found fuel : forall iters n0 m,
  (forall k, n0 <= k < m -> exists v, p (k :: xs) fuel = Val (S v)) ->
  p (m :: xs) fuel = Val 0 ->
  n0 <= m -> m - n0 < iters ->
  mu_loop p xs n0 iters fuel = Val m.
Proof.
  induction iters as [| iters IH]; intros n0 m Hlow Hm Hle Hit; [lia |].
  cbn [mu_loop]; unfold bind.
  destruct (Nat.eq_dec n0 m) as [-> | Hne].
  - rewrite Hm; reflexivity.
  - destruct (Hlow n0) as [v Hv]; [lia |].
    rewrite Hv; cbn [Nat.eqb].
    apply IH; try lia; try assumption.
    intros k Hk; apply Hlow; lia.
Qed.

(** What a returned counter says about the probes that were made. *)
Lemma mu_loop_val_inv fuel : forall iters n0 m,
  mu_loop p xs n0 iters fuel = Val m ->
  n0 <= m /\ m - n0 < iters /\ p (m :: xs) fuel = Val 0 /\
  forall k, n0 <= k < m -> exists v, p (k :: xs) fuel = Val (S v).
Proof.
  induction iters as [| iters IH]; intros n0 m H; [discriminate |].
  cbn [mu_loop] in H; unfold bind in H.
  destruct (p (n0 :: xs) fuel) as [[| v] | e |] eqn:E; try discriminate.
  - cbn in H; injection H as <-.
    repeat split; try lia; try assumption.
  - cbn [Nat.eqb] in H; apply IH in H; destruct H as (H1 & H2 & H3 & H4).
    repeat split; try lia; try assumption.
    intros k Hk; destruct (Nat.eq_dec k n0) as [-> | Hne]; [eauto |].
    apply H4; lia.
Qed.

(** The loop only stops on a zero or on what the predicate raises. *)
Lemma mu_loop_never fuel :
  (forall k, p (k :: xs) fuel <> Val 0) ->
  (forall k e, p (k :: xs) fuel <> Raise e) ->
  forall iters n0, mu_loop p xs n0 iters fuel = OutOfFuel.
Proof.
  intros Hz He; induction iters as [| iters IH]; intros n0; [reflexivity |].
  cbn [mu_loop]; unfold bind.
  destruct (p (n0 :: xs) fuel) as [[| v] | e |] eqn:E.
  - exfalso; exact (Hz _ E).
  - cbn [Nat.eqb]; apply IH.
  - exfalso; exact (He _ _ E).
  - reflexivity.
Qed.

(** A probe that does not come back blocks the loop where it stands. *)
Lemma mu_loop_blocked fuel iters n0 :
  p (n0 :: xs) fuel = OutOfFuel -> mu_loop p xs n0 iters fuel = OutOfFuel.
Proof.
  intros H; destruct iters; [reflexivity |].
  cbn [mu_loop]; unfold bind; rewrite H; reflexivity.
Qed.

Lemma mu_loop_raise fuel iters n0 e :
  p (n0 :: xs) fuel = Raise e -> mu_loop p xs n0 (S iters) fuel = Raise e.
Proof. intros H; cbn [mu_loop]; unfold bind; rewrite H; reflexivity. Qed.

Lemma mu_loop_stable :
  stable_fn p ->
  forall iters iters' n0 fuel fuel',
    iters <= iters' -> fuel <= fuel' ->
    mu_loop p xs n0 iters fuel <> OutOfFuel ->
    mu_loop p xs n0 iters' fuel' = mu_loop p xs n0 iters fuel.
Proof.
  intros Hp; induction iters as [| iters IH];
    intros iters' n0 fuel fuel' Hi Hf Hne; [exfalso; apply Hne; reflexivity |].
  destruct iters' as [| iters']; [lia |].
  cbn [mu_loop] in *; unfold bind in *.
  destruct (p (n0 :: xs) fuel) as [r | e |] eqn:E; try congruence;
    rewrite (Hp (n0 :: xs) fuel fuel' Hf), E by congruence; [| reflexivity].
  destruct (r =? 0); [reflexivity |].
  apply IH; [lia | assumption | assumption].
Qed.

(** Finitely many probes that all return share a fuel from which they
    all have returned. *)
Lemma returns_below m :
  (forall k, k < m -> exists v, returns (p (k :: xs)) (S v)) ->
  exists fuel0, forall fuel, fuel0 <= fuel ->
    forall k, k < m -> exists v, p (k :: xs) fuel = Val (S v).
Proof.
  induction m as [| m IH]; intros H.
  - exists 0; intros fuel _ k Hk; lia.
  - destruct IH as [f1 H1]; [intros k Hk; apply H; lia |].
    destruct (H m (Nat.lt_succ_diag_r m)) as [v [f2 H2]].
    exists (Nat.max f1 f2); intros fuel Hle k Hk.
    destruct (Nat.eq_dec k m) as [-> | Hne].
    + exists v; apply H2; lia.
    + apply H1; lia.
Qed.

Lemma mu_returns_at m :
  (forall k, k < m -> exists v, returns (p (k :: xs)) (S v)) ->
  returns (p (m :: xs)) 0 ->
  returns (mu p xs) m.
Proof.
  intros Hlow [f2 H2]; destruct (returns_below m Hlow) as [f1 H1].
  exists (Nat.max (S m) (Nat.max f1 f2)); intros fuel Hle.
  unfold mu; apply mu_loop_found; try lia.
  - intros k Hk; apply H1; lia.
  - apply H2; lia.
Qed.

(** Below an argument where the predicate returns zero, and when it
    returns at every smaller one, there is a first zero. *)
Lemma first_zero n :
  returns (p (n :: xs)) 0 ->
  (forall k, k < n -> exists v, returns (p (k :: xs)) v) ->
  exists m, m <= n /\ returns (p (m :: xs)) 0 /\
    forall k, k < m -> exists v, returns (p (k :: xs)) (S v).
Proof.
  intros Hn Hdef.
  assert (H : forall j, j <= n ->
    (exists m, m < j /\ returns (p (m :: xs)) 0 /\
       forall k, k < m -> exists v, returns (p (k :: xs)) (S v)) \/
    (forall k, k < j -> exists v, returns (p (k :: xs)) (S v))).
  { induction j as [| j IH]; intros Hj; [right; intros k Hk; lia |].
    destruct IH as [(m & Hm & Hz & Hlow) | Hall]; [lia | |].
    - left; exists m; repeat split; [lia | assumption | assumption].
    - destruct (Hdef j) as [[| v] Hv]; [lia | |].
      + left; exists j; repeat split; [lia | assumption | assumption].
      + right; intros k Hk; destruct (Nat.eq_dec k j) as [-> | Hne];
          [exists v; assumption | apply Hall; lia]. }
  destruct (H n (Nat.le_refl n)) as [(m & Hm & Hz & Hlow) | Hall].
  - exists m; repeat split; [lia | assumption | assumption].
  - exists n; repeat split; [lia | assumption | assumption].
Qed.
End Minimisation.

(** ** Every function value of the program is stable in the fuel *)

Section Stability.
Import Godel.

Lemma stable_lam1 body : (forall x, stable (body x)) -> stable_fn (lam1 body).
Proof. intros H [| x [| y args]]; cbn; auto with stable. Qed.

Lemma stable_lam2 body :
  (forall x y, stable (body x y)) -> stable_fn (lam2 body).
Proof. intros H [| x [| y [| z args]]]; cbn; auto with stable. Qed.

Lemma stable_proj i args : stable (proj i args).
Proof. unfold proj; destruct (nth_error args i); auto with stable. Qed.

Lemma stable_const k : stable_fn (const k).
Proof. intros args; apply stable_ret. Qed.

Lemma stable_mkproj i : stable_fn (mkproj i).
Proof. intros args; apply stable_proj. Qed.

Lemma stable_incr : stable_fn incr.
Proof. apply stable_lam1; intros x; apply stable_ret. Qed.

Lemma stable_call_all hs args :
  Forall stable_fn hs -> stable (call_all hs args).
Proof.
  induction 1 as [| h hs Hh _ IH]; cbn [call_all]; [apply stable_ret |].
  apply stable_bind; [apply Hh |]; intros x.
  apply stable_bind; [apply IH |]; intros vs; apply stable_ret.
Qed.

Lemma stable_comp f hs :
  stable_fn f -> Forall stable_fn hs -> stable_fn (comp f hs).
Proof.
  intros Hf Hhs args; unfold comp.
  apply stable_bind; [apply stable_call_all, Hhs | intros vs; apply Hf].
Qed.

Lemma stable_rec f g : stable_fn f -> stable_fn g -> stable_fn (rec f g).
Proof.
  intros Hf Hg [| n xs]; cbn [rec]; [apply stable_raise |].
  induction n as [| n IH]; cbn [rec_h]; [apply Hf |].
  apply stable_bind; [apply IH | intros r; apply Hg].
Qed.

Lemma stable_mu p : stable_fn p -> stable_fn (mu p).
Proof.
  intros Hp xs fuel fuel' Hle Hne; unfold mu in *.
  apply mu_loop_stable; assumption.
Qed.
End Stability.

#[local] Hint Resolve stable_lam1 stable_lam2 stable_proj stable_const
stable_mkproj stable_incr stable_comp stable_rec stable_mu : stable.
#[local] Hint Extern 1 (Forall stable_fn _) => repeat constructor : stable.

Section LibraryStability.
Import Godel.

Lemma stable_library :
  Forall stable_fn
    [zero; one; id; pred; add; mul; exp; sub; is_zero; sign; leq; eq; neq;
     max; min; geq; lt].
Proof.
  assert (Hzero : stable_fn zero) by apply stable_const.
  assert (Hone : stable_fn one) by apply stable_const.
  assert (Hid : stable_fn id) by (apply stable_lam1; intros; apply stable_proj).
  assert (Hpred : stable_fn pred)
    by (apply stable_rec; [| apply stable_lam2; intros; apply stable_ret]; assumption).
  assert (Hadd : stable_fn add).
  { apply stable_lam2; intros x y; apply stable_rec; [assumption |].
    apply stable_comp; auto with stable. }
  assert (Hmul : stable_fn mul).
  { apply stable_lam2; intros x y; apply stable_rec; [assumption |].
    apply stable_comp; auto with stable. }
  assert (Hexp : stable_fn exp).
  { apply stable_lam2; intros x y; apply stable_rec; [assumption |].
    apply stable_comp; auto with stable. }
  assert (Hsub : stable_fn sub).
  { apply stable_lam2; intros x y; apply stable_rec; [assumption |].
    apply stable_comp; auto with stable. }
  assert (His_zero : stable_fn is_zero) by (apply stable_rec; auto with stable).
  assert (Hsign : stable_fn sign) by (apply stable_rec; auto with stable).
  assert (Hleq : stable_fn leq) by (apply stable_comp; auto with stable).
  assert (Heq : stable_fn eq).
  { apply stable_comp; [assumption |].
    repeat constructor; [assumption |]. apply stable_comp; auto with stable. }
  assert (Hmax : stable_fn max).
  { apply stable_comp; [assumption |].
    repeat constructor; auto with stable. }
  repeat constructor; try assumption.
  - apply stable_comp; [assumption |]. repeat constructor.
    apply stable_comp; [assumption |]. repeat constructor.
    apply stable_comp; auto with stable.
  - apply stable_comp; [assumption |].
    repeat constructor; apply stable_comp; auto with stable.
  - apply stable_lam2; intros x y; apply stable_comp; auto with stable.
  - apply stable_lam2; intros x y; apply stable_comp; [assumption |].
    repeat constructor; apply stable_comp; auto with stable.
Qed.
End LibraryStability.

(** ** The values of [examples()] *)

Example examples_values :
map (fun m => m 0) examples =
map Val [0; 4; 7; 12; 32; 0; 3; 1; 0; 1; 0; 1; 0].
Proof. reflexivity. Qed.

(** ** Primitive recursion *)

Section Recursion.
Import Godel.

(** C2: [h = rec(f, g)] satisfies [h(0, xs) = f(xs)], where [g] is not
    entered at all, and [h(n+1, xs) = g(n, h(n, xs), xs)]: the recursive
    call is evaluated first, and [g] then receives the predecessor, the
    value that call returned, and the extra arguments unchanged. *)
Theorem rec_equations (f g : fn) (n : nat) (xs : list nat) (fuel : nat) :
  rec f g (0 :: xs) fuel = f xs fuel /\
  rec f g (n + 1 :: xs) fuel =
    (r <- rec f g (n :: xs) ;; g (n :: r :: xs)) fuel.
Proof.
  split; [apply rec_0 |].
  rewrite Nat.add_1_r; apply rec_S.
Qed.

Lemma rec_base_returns (f g : fn) xs v :
  returns (f xs) v -> returns (rec f g (0 :: xs)) v.
Proof. intros H; exact H. Qed.

Lemma rec_step_returns (f g : fn) n xs r v :
  returns (rec f g (n :: xs)) r ->
  returns (g (n :: r :: xs)) v ->
  returns (rec f g (n + 1 :: xs)) v.
Proof.
  intros Hr Hv; rewrite Nat.add_1_r.
  exact (returns_bind _ (fun r => g (n :: r :: xs)) r v Hr Hv).
Qed.

(** X16: [rec(f, g)] returns on every argument list with a first argument
    when [f] and [g] return on all of theirs: the recursion goes down from
    [n] to [0] and comes back through [g] once for each number below [n]. *)
Lemma rec_total (f g : fn) :
  (forall xs, exists v, returns (f xs) v) ->
  (forall args, exists v, returns (g args) v) ->
  forall n xs, exists v, returns (rec f g (n :: xs)) v.
Proof.
  intros Hf Hg n xs; induction n as [| n [r IH]]; [apply Hf |].
  destruct (Hg (n :: r :: xs)) as [v Hv]; exists v.
  rewrite <- Nat.add_1_r; eapply rec_step_returns; eassumption.
Qed.
End Recursion.

(** ** Unbounded minimisation *)

Section MinimisationClaims.
Import Godel GodelSpec.

Lemma zero_after_0_at_0 : diverges (zero_after_0 [0]).
Proof.
  intros fuel; unfold zero_after_0, mu; apply mu_loop_never.
  - intros k; rewrite comp_vals with (vs := [0]) by (repeat constructor).
    rewrite is_zero_spec; discriminate.
  - intros k e; rewrite comp_vals with (vs := [0]) by (repeat constructor).
    rewrite is_zero_spec; discriminate.
Qed.

Lemma zero_after_0_at_S n : returns (zero_after_0 [S n]) 0.
Proof.
  exists 1; intros [| fuel] Hle; [lia |].
  unfold zero_after_0, mu; cbn [mu_loop]; unfold bind.
  rewrite comp_vals with (vs := [S n]) by (repeat constructor).
  rewrite is_zero_spec; reflexivity.
Qed.

Lemma zero_after_0_stable : stable_fn zero_after_0.
Proof.
  apply stable_mu, stable_comp; [| repeat constructor; apply stable_mkproj].
  pose proof stable_library as H.
  repeat (apply Forall_cons_iff in H; destruct H as [? H]); assumption.
Qed.

(** C1, as it is stated, fails: the predicate
    [mu(comp(is_zero, mkproj(1)))] returns [0] at [n = 1], so a zero
    exists, but it runs forever at [n = 0], and [mu] of it, which probes
    [n = 0] first, returns nothing. *)
Lemma mu_blocked_before_zero :
  (exists n, returns (zero_after_0 [n]) 0) /\
  stable_fn zero_after_0 /\
  diverges (mu zero_after_0 []) /\
  ~ (exists m, returns (mu zero_after_0 []) m).
Proof.
  assert (Hd : diverges (mu zero_after_0 [])).
  { intros fuel; unfold mu; apply mu_loop_blocked, zero_after_0_at_0. }
  repeat split.
  - exists 1; apply zero_after_0_at_S.
  - apply zero_after_0_stable.
  - exact Hd.
  - intros [m Hm]; exact (diverges_not_returns _ m Hd Hm).
Qed.

(** C1, amended: if [p(n, xs) = 0] for some [n] and [p] returns a value at
    every argument below [n], then [mu(p)(xs)] returns the smallest [m]
    with [p(m, xs) = 0]: the probes at [0, 1, ..., m-1] all returned a
    non-zero value and the one at [m] returned zero. *)
Theorem mu_returns_least (p : fn) (xs : list nat) (n : nat) :
  returns (p (n :: xs)) 0 ->
  (forall k, k < n -> exists v, returns (p (k :: xs)) v) ->
  exists m,
    m <= n /\
    returns (mu p xs) m /\
    returns (p (m :: xs)) 0 /\
    (forall k, k < m -> ~ returns (p (k :: xs)) 0) /\
    (forall k, k < m -> exists v, returns (p (k :: xs)) (S v)).
Proof.
  intros Hn Hdef.
  destruct (first_zero p xs n Hn Hdef) as (m & Hle & Hz & Hlow).
  exists m; repeat split; try assumption.
  - apply mu_returns_at; assumption.
  - intros k Hk H0; destruct (Hlow k Hk) as [v Hv].
    discriminate (returns_inj _ _ _ H0 Hv).
Qed.

Lemma mu_returns_least_witness :
  returns (sub_3_n [5]) 0 /\
  (forall k, k < 5 -> exists v, returns (sub_3_n [k]) v) /\
  exists m,
    m <= 5 /\
    returns (mu sub_3_n []) m /\
    returns (sub_3_n [m]) 0 /\
    (forall k, k < m -> ~ returns (sub_3_n [k]) 0) /\
    (forall k, k < m -> exists v, returns (sub_3_n [k]) (S v)).
Proof.
  assert (H5 : returns (sub_3_n [5]) 0) by (exists 0; intros; reflexivity).
  assert (Hlow : forall k, k < 5 -> exists v, returns (sub_3_n [k]) v).
  { intros k _; exists (3 - k); exists 0; intros fuel _; apply sub_spec. }
  split; [exact H5 | split; [exact Hlow |]].
  exact (mu_returns_least sub_3_n [] 5 H5 Hlow).
Defined.

(** X19: when [mu(p)(xs)] returns [m], then [p(m, xs)] returned [0] and [p]
    returned a non-zero value at every argument below [m]: the counter [mu]
    returns was reached through every smaller one. *)
Lemma mu_returns_inv (p : fn) (xs : list nat) (m : nat) :
  stable_fn p ->
  returns (mu p xs) m ->
  returns (p (m :: xs)) 0 /\
  forall k, k < m -> exists v, returns (p (k :: xs)) (S v).
Proof.
  intros Hp [f0 H]; specialize (H f0 (Nat.le_refl f0)); unfold mu in H.
  apply mu_loop_val_inv in H; destruct H as (_ & _ & Hz & Hlow); split.
  - exact (stable_returns _ _ f0 (Hp _) Hz).
  - intros k Hk; destruct (Hlow k) as [v Hv]; [lia |].
    exists v; exact (stable_returns _ _ f0 (Hp _) Hv).
Qed.

(** C5: if [p(n, xs)] is [0] for no [n] (and [p], called at its own
    arity, raises nothing), then [mu(p)(xs)] never returns: whatever the
    number of iterations allowed, the loop is still running, so it gives
    no value, raises nothing and has no bound at which it gives up. *)
Theorem mu_never_returns (p : fn) (xs : list nat) :
  (forall n fuel, p (n :: xs) fuel <> Val 0) ->
  (forall n fuel e, p (n :: xs) fuel <> Raise e) ->
  diverges (mu p xs) /\
  (forall v, ~ returns (mu p xs) v) /\
  (forall e, ~ raises (mu p xs) e).
Proof.
  intros Hz He.
  assert (Hd : diverges (mu p xs)).
  { intros fuel; unfold mu; apply mu_loop_never; intros k; [apply Hz | apply He]. }
  repeat split; [exact Hd | |].
  - intros v; apply diverges_not_returns, Hd.
  - intros e; apply diverges_not_raises, Hd.
Qed.

Lemma mu_never_returns_witness :
  (forall n fuel, incr [n] fuel <> Val 0) /\
  (forall n fuel e, incr [n] fuel <> Raise e) /\
  diverges (mu incr []) /\
  (forall v, ~ returns (mu incr []) v) /\
  (forall e, ~ raises (mu incr []) e).
Proof.
  assert (Hz : forall n fuel, incr [n] fuel <> Val 0).
  { intros n fuel; cbn; unfold ret; rewrite Nat.add_1_r; discriminate. }
  assert (He : forall n fuel e, incr [n] fuel <> Raise e).
  { intros n fuel e; cbn; unfold ret; discriminate. }
  split; [exact Hz | split; [exact He |]].
  exact (mu_never_returns incr [] Hz He).
Defined.

(** The same, for a stable predicate, in terms of what it returns. *)
Corollary mu_diverges_without_zero (p : fn) (xs : list nat) :
  stable_fn p ->
  (forall n, ~ returns (p (n :: xs)) 0) ->
  (forall n e, ~ raises (p (n :: xs)) e) ->
  diverges (mu p xs).
Proof.
  intros Hp Hz He fuel; unfold mu; apply mu_loop_never.
  - intros k H; exact (Hz k (stable_returns _ _ fuel (Hp _) H)).
  - intros k e H; exact (He k e (stable_raises _ _ fuel (Hp _) H)).
Qed.

(** X18: what the predicate raises at the first argument where it does not
    return a non-zero value, [mu] raises: the search neither catches it nor
    goes on to the next argument. *)
Lemma mu_raises (p : fn) (xs : list nat) (m : nat) (e : exn) :
  (forall k, k < m -> exists v, returns (p (k :: xs)) (S v)) ->
  raises (p (m :: xs)) e ->
  raises (mu p xs) e.
Proof.
  intros Hlow [f2 H2]; destruct (returns_below p xs m Hlow) as [f1 H1].
  exists (Nat.max (S m) (Nat.max f1 f2)); intros fuel Hle.
  assert (Hgen : forall iters n0, n0 <= m -> m - n0 < iters ->
            mu_loop p xs n0 iters fuel = Raise e).
  { induction iters as [| iters IH]; intros n0 Hn0 Hit; [lia |].
    destruct (Nat.eq_dec n0 m) as [-> | Hne].
    - apply mu_loop_raise, H2; lia.
    - cbn [mu_loop]; unfold bind.
      destruct (H1 fuel ltac:(lia) n0 ltac:(lia)) as [v ->].
      cbn [Nat.eqb]; apply IH; lia. }
  unfold mu; apply Hgen; lia.
Qed.

Lemma sub_n_3_at_0 fuel : sub_n_3 [0] fuel = Val 0.
Proof. reflexivity. Qed.

Lemma mu_sub_n_3 fuel : 0 < fuel -> mu sub_n_3 [] fuel = Val 0.
Proof.
  intros H; destruct fuel as [| fuel]; [lia |].
  unfold mu; cbn [mu_loop]; unfold bind; rewrite sub_n_3_at_0; reflexivity.
Qed.

(** C4, as it is stated, fails: [sub(n, 3)] is the monus, which is [0]
    already at [n = 0], so [mu] of it stops at its first probe and
    returns [0], not [3]. *)
Lemma mu_sub_n_3_is_not_3 :
  sub_n_3 [0] 0 = Val 0 /\
  mu sub_n_3 [] 1 = Val 0 /\
  ~ returns (mu sub_n_3 []) 3.
Proof.
  repeat split.
  intros [f0 H]; specialize (H (S f0) (Nat.le_succ_diag_r f0)).
  rewrite mu_sub_n_3 in H by lia; discriminate.
Qed.

(** C4, amended: [mu] applied to [p(n) = sub(n, 3)] returns [0], since
    [p] is zero at every [n <= 3] and the search from [0] upwards stops at
    the first; it is for [p(n) = sub(3, n)], whose first zero is at
    [n = 3], that [mu] returns [3]. *)
Theorem mu_sub_n_3_returns_0 :
  returns (mu sub_n_3 []) 0 /\
  (forall n fuel, sub_n_3 [n] fuel = Val (n - 3)) /\
  returns (mu sub_3_n []) 3.
Proof.
  repeat split.
  - exists 1; intros fuel Hle; apply mu_sub_n_3; lia.
  - intros n fuel; apply sub_spec.
  - exists 4; intros fuel Hle; unfold mu.
    apply mu_loop_found; try lia; try reflexivity.
    intros k Hk; exists (2 - k).
    unfold sub_3_n, lam1; rewrite sub_spec; f_equal; lia.
Qed.
End MinimisationClaims.

(** ** The standard library *)

Section LibraryClaims.
Import Godel GodelSpec.

(** C3: [sub] is truncated subtraction: [sub(x, y)] is [x - y] when
    [y <= x] and [0] when [x < y], for all naturals; so [sub(x, 0) = x] for
    every [x], [sub(x, y) = 0] whenever [x < y], and [sub(7, 10) = 0], while
    [sub(10, 7) = 3]. *)
Theorem sub_is_monus (x y fuel : nat) :
  sub [x; y] fuel = Val (x - y) /\
  (y <= x -> exists d, sub [x; y] fuel = Val d /\ d + y = x) /\
  sub [x; 0] fuel = Val x /\
  (x < y -> sub [x; y] fuel = Val 0) /\
  sub [7; 10] fuel = Val 0 /\
  sub [10; 7] fuel = Val 3.
Proof.
  split; [apply sub_spec |].
  split; [intros H; exists (x - y); split; [apply sub_spec | lia] |].
  split; [rewrite sub_spec; f_equal; lia |].
  split; [intros H; rewrite sub_spec; f_equal; lia |].
  split; apply sub_spec.
Qed.

Lemma sub_is_monus_witness :
  (7 < 10 /\ sub [7; 10] 0 = Val 0) /\
  (7 <= 10 /\ exists d, sub [10; 7] 0 = Val d /\ d + 7 = 10).
Proof.
  assert (Hlt : 7 < 10) by (repeat constructor).
  assert (Hle : 7 <= 10) by (repeat constructor).
  split; (split; [assumption |]).
  - exact (proj1 (proj2 (proj2 (proj2 (sub_is_monus 7 10 0)))) Hlt).
  - exact (proj1 (proj2 (sub_is_monus 10 7 0)) Hle).
Defined.

(** C6: [eq(x, y)] is [1] when [x = y] and [0] otherwise; [eq(9, 9) = 1]
    and [eq(9, 8) = 0]. *)
Theorem eq_decides_equality (x y fuel : nat) :
  eq [x; y] fuel = Val (if Nat.eq_dec x y then 1 else 0) /\
  eq [9; 9] fuel = Val 1 /\
  eq [9; 8] fuel = Val 0.
Proof.
  repeat split; try apply eq_spec.
  rewrite eq_spec.
  destruct (Nat.eq_dec x y) as [-> | Hne].
  - rewrite Nat.eqb_refl; reflexivity.
  - apply Nat.eqb_neq in Hne; rewrite Hne; reflexivity.
Qed.

(** C7: [add] and [mul] are commutative and [add] is associative, each
    side being a call that returns: [add(x, y) = add(y, x)],
    [mul(x, y) = mul(y, x)] and [add(add(x, y), z) = add(x, add(y, z))]. *)
Theorem add_mul_commute_add_assoc (x y z fuel : nat) :
  (exists s, add [x; y] fuel = Val s /\ add [y; x] fuel = Val s) /\
  (exists s, mul [x; y] fuel = Val s /\ mul [y; x] fuel = Val s) /\
  (exists s,
     (a <- add [x; y] ;; add [a; z]) fuel = Val s /\
     (b <- add [y; z] ;; add [x; b]) fuel = Val s).
Proof.
  repeat split.
  - exists (x + y); rewrite !add_spec; split; f_equal; lia.
  - exists (x * y); rewrite !mul_spec; split; f_equal; lia.
  - exists (x + y + z); unfold bind; rewrite !add_spec.
    split; f_equal; lia.
Qed.

(** C8: [pred(incr(n)) = n] for every [n]. *)
Theorem pred_incr (n fuel : nat) :
  (m <- incr [n] ;; pred [m]) fuel = Val n.
Proof.
  unfold bind, incr, lam1, ret; rewrite pred_spec, Nat.add_1_r; reflexivity.
Qed.

(** C9: [max(x, y)] is the larger and [min(x, y)] the smaller of [x] and
    [y], and both are compositions of [add] and [sub] over projections. *)
Theorem max_min_correct (x y fuel : nat) :
  max [x; y] fuel = Val (Nat.max x y) /\
  min [x; y] fuel = Val (Nat.min x y) /\
  max = comp add [comp sub [mkproj 0; mkproj 1]; mkproj 1] /\
  min = comp sub [comp add [mkproj 0; mkproj 1];
                  comp max [mkproj 0; mkproj 1]].
Proof.
  repeat split; [apply max_spec | apply min_spec].
Qed.

(** C10: [is_zero(n) + sign(n) = 1] for every [n], each of the two being
    [0] or [1]: [is_zero(0) = 1] and [sign(0) = 0], and for [n > 0],
    [is_zero(n) = 0] and [sign(n) = 1]. *)
Theorem is_zero_sign_complement (n fuel : nat) :
  (exists a b,
     is_zero [n] fuel = Val a /\ sign [n] fuel = Val b /\
     a + b = 1 /\ a <= 1 /\ b <= 1) /\
  is_zero [0] fuel = Val 1 /\ sign [0] fuel = Val 0 /\
  is_zero [S n] fuel = Val 0 /\ sign [S n] fuel = Val 1.
Proof.
  repeat split; try apply is_zero_spec; try apply sign_spec.
  exists (match n with 0 => 1 | S _ => 0 end),
         (match n with 0 => 0 | S _ => 1 end).
  rewrite is_zero_spec, sign_spec; destruct n; repeat split; lia.
Qed.
End LibraryClaims.

(** ** Composition and projection *)

Section Composition.
Import Godel GodelSpec.

Lemma call_all_stops (hs1 : list fn) (h : fn) (hs2 : list fn)
    (args vs : list nat) fuel :
  Forall2 (fun h v => h args fuel = Val v) hs1 vs ->
  (forall v, h args fuel <> Val v) ->
  call_all (hs1 ++ h :: hs2) args fuel =
    match h args fuel with
    | Val _ => OutOfFuel
    | Raise e => Raise e
    | OutOfFuel => OutOfFuel
    end.
Proof.
  intros H Hh; induction H as [| h1 v hs1 vs Hh1 _ IH]; cbn [app call_all].
  - unfold bind at 1.
    destruct (h args fuel) as [v | e |] eqn:E;
    [exfalso; exact (Hh v eq_refl) | |]; reflexivity.
  - unfold bind at 1; rewrite Hh1.
    unfold bind at 1; rewrite IH.
    destruct (h args fuel); reflexivity.
Qed.

(** X1: [comp(f, h1, ..., hk)] called on [args] is [f] called on the values
    [h1(args), ..., hk(args)], in that order, when every [hi] returns. *)
Theorem comp_calls_outer_on_results (f : fn) (hs : list fn)
    (args vs : list nat) (fuel : nat) :
  Forall2 (fun h v => h args fuel = Val v) hs vs ->
  comp f hs args fuel = f vs fuel /\ length vs = length hs.
Proof.
  intros H; split; [apply comp_vals, H |].
  symmetry; exact (Forall2_length H).
Qed.

Lemma comp_calls_outer_on_results_witness :
  Forall2 (fun h v => h [3; 4] 0 = Val v) [mkproj 1; mkproj 0] [4; 3] /\
  comp sub [mkproj 1; mkproj 0] [3; 4] 0 = sub [4; 3] 0 /\
  length [4; 3] = length [mkproj 1; mkproj 0].
Proof.
  assert (H : Forall2 (fun h v => h [3; 4] 0 = Val v) [mkproj 1; mkproj 0] [4; 3])
    by (repeat constructor).
  split; [exact H |].
  exact (comp_calls_outer_on_results sub [mkproj 1; mkproj 0] [3; 4] [4; 3] 0 H).
Defined.

(** X2: the inner functions of [comp] are called from left to right, and the
    first one that does not return decides the call: what it raises is
    raised, and if it runs forever so does the call, whatever the outer
    function and the inner functions after it would do. *)
Theorem comp_first_failure (f : fn) (hs1 : list fn) (h : fn) (hs2 : list fn)
    (args vs : list nat) (fuel : nat) :
  Forall2 (fun h v => h args fuel = Val v) hs1 vs ->
  (forall v, h args fuel <> Val v) ->
  comp f (hs1 ++ h :: hs2) args fuel = h args fuel.
Proof.
  intros H Hh; unfold comp, bind.
  rewrite (call_all_stops hs1 h hs2 args vs fuel H Hh).
  destruct (h args fuel) as [v | e |] eqn:E;
    [exfalso; exact (Hh v eq_refl) | |]; reflexivity.
Qed.

Lemma comp_first_failure_witness :
  Forall2 (fun h v => h [1; 2] 0 = Val v) [mkproj 0] [1] /\
  (forall v, mkproj 5 [1; 2] 0 <> Val v) /\
  comp add ([mkproj 0] ++ mkproj 5 :: [incr]) [1; 2] 0 = Raise IndexError.
Proof.
  assert (H : Forall2 (fun h v => h [1; 2] 0 = Val v) [mkproj 0] [1])
    by (repeat constructor).
  assert (Hh : forall v, mkproj 5 [1; 2] 0 <> Val v) by (intros v; discriminate).
  split; [exact H | split; [exact Hh |]].
  exact (comp_first_failure add [mkproj 0] (mkproj 5) [incr] [1; 2] [1] 0 H Hh).
Defined.

(** X3: [mkproj(i)] returns the argument at position [i] when there are more
    than [i] arguments and raises [IndexError] when there are not; it never
    runs out of fuel. *)
Theorem mkproj_bounds (i : nat) (args : list nat) (fuel : nat) :
  (i < length args ->
   exists x, nth_error args i = Some x /\ mkproj i args fuel = Val x) /\
  (length args <= i -> mkproj i args fuel = Raise IndexError).
Proof.
  unfold mkproj, proj; split; intros H.
  - destruct (nth_error args i) as [x |] eqn:E.
    + exists x; split; reflexivity.
    + apply nth_error_None in E; lia.
  - apply nth_error_None in H; rewrite H; reflexivity.
Qed.

Lemma mkproj_bounds_witness :
  (1 < length [7; 8; 9] /\
   exists x, nth_error [7; 8; 9] 1 = Some x /\ mkproj 1 [7; 8; 9] 0 = Val x) /\
  (length [7; 8; 9] <= 3 /\ mkproj 3 [7; 8; 9] 0 = Raise IndexError).
Proof.
  assert (H1 : 1 < length [7; 8; 9]) by (cbn; repeat constructor).
  assert (H3 : length [7; 8; 9] <= 3) by (cbn; repeat constructor).
  split; (split; [assumption |]).
  - exact (proj1 (mkproj_bounds 1 [7; 8; 9] 0) H1).
  - exact (proj2 (mkproj_bounds 3 [7; 8; 9] 0) H3).
Defined.
End Composition.

(** ** Arithmetic and comparisons of the library *)

Section LibraryArithmetic.
Import Godel GodelSpec.

(** X4: [add(x, y)] returns [x + y], [mul(x, y)] returns [x * y] and
    [sub(x, y)] returns [x - y] cut off at [0], for all naturals. *)
Theorem add_mul_sub_values (x y fuel : nat) :
  add [x; y] fuel = Val (x + y) /\
  mul [x; y] fuel = Val (x * y) /\
  sub [x; y] fuel = Val (x - y).
Proof. repeat split; [apply add_spec | apply mul_spec | apply sub_spec]. Qed.

(** X5: [exp(x, y)] returns [x] to the power [y]; the exponent [0] gives
    [1] for every base, [0] included, and a sum of exponents gives the
    product that [mul] computes. *)
Theorem exp_power (x y z fuel : nat) :
  exp [x; y] fuel = Val (x ^ y) /\
  exp [x; 0] fuel = Val 1 /\
  exp [0; S y] fuel = Val 0 /\
  (s <- add [y; z] ;; exp [x; s]) fuel =
    (a <- exp [x; y] ;; b <- exp [x; z] ;; mul [a; b]) fuel.
Proof.
  split; [apply exp_spec |].
  split; [apply exp_spec |].
  split; [rewrite exp_spec, Nat.pow_0_l by discriminate; reflexivity |].
  unfold bind; rewrite add_spec, !exp_spec, mul_spec, Nat.pow_add_r.
  reflexivity.
Qed.

(** X6: subtracting what was added gives the first summand back,
    [sub(add(x, y), y) = x]; adding back what was subtracted gives the larger
    of the two, [add(sub(x, y), y) = max(x, y)], which is [x] only from
    [y <= x] on. *)
Theorem sub_add_round_trip (x y fuel : nat) :
  (s <- add [x; y] ;; sub [s; y]) fuel = Val x /\
  (d <- sub [x; y] ;; add [d; y]) fuel = Val (Nat.max x y) /\
  (d <- sub [x; y] ;; add [d; y]) fuel = max [x; y] fuel.
Proof.
  unfold bind; rewrite add_spec, !sub_spec, add_spec, max_spec.
  repeat split; f_equal; lia.
Qed.

(** X7: [incr(pred(n))] is [n] for every [n] but [0], where it is [1]:
    [pred] stops at [0]. *)
Theorem incr_pred (n fuel : nat) :
  (m <- pred [n] ;; incr [m]) fuel = Val (Nat.max n 1) /\
  pred [0] fuel = Val 0.
Proof.
  split; [| apply pred_spec].
  unfold bind; rewrite pred_spec; unfold incr, lam1, ret; f_equal; lia.
Qed.

(** X8: [leq] is a total order with values [0] and [1]: [leq(x, y)] is [1]
    exactly when [x <= y], one of [leq(x, y)] and [leq(y, x)] is [1], and
    both are exactly when [x = y]. *)
Theorem leq_total_order (x y fuel : nat) :
  exists a b,
    leq [x; y] fuel = Val a /\ leq [y; x] fuel = Val b /\
    a = (if le_dec x y then 1 else 0) /\
    1 <= a + b /\
    a * b = (if Nat.eq_dec x y then 1 else 0).
Proof.
  exists (if x <=? y then 1 else 0), (if y <=? x then 1 else 0).
  rewrite !leq_spec.
  destruct (Nat.leb_spec x y), (Nat.leb_spec y x), (le_dec x y),
    (Nat.eq_dec x y); repeat split; cbn; lia.
Qed.

(** X9: exactly one of [lt(x, y)], [eq(x, y)] and [lt(y, x)] is [1], the
    other two are [0]; [lt(x, y)] is [1] exactly when [x < y]. *)
Theorem lt_eq_trichotomy (x y fuel : nat) :
  exists a b c,
    lt [x; y] fuel = Val a /\ eq [x; y] fuel = Val b /\
    lt [y; x] fuel = Val c /\
    a = (if lt_dec x y then 1 else 0) /\
    a + b + c = 1.
Proof.
  exists (if x <? y then 1 else 0), (if x =? y then 1 else 0),
         (if y <? x then 1 else 0).
  rewrite !lt_spec, eq_spec.
  destruct (Nat.ltb_spec x y), (Nat.ltb_spec y x), (Nat.eqb_spec x y),
    (lt_dec x y); repeat split; cbn; lia.
Qed.

(** X10: [neq] is the complement of [eq] and [lt] the complement of [geq],
    and [geq(x, y)] is [leq(y, x)]. *)
Theorem comparison_complements (x y fuel : nat) :
  (exists a b,
     eq [x; y] fuel = Val a /\ neq [x; y] fuel = Val b /\
     a + b = 1 /\ b = (if Nat.eq_dec x y then 0 else 1)) /\
  (exists a b,
     lt [x; y] fuel = Val a /\ geq [x; y] fuel = Val b /\ a + b = 1) /\
  geq [x; y] fuel = leq [y; x] fuel.
Proof.
  repeat split.
  - exists (if x =? y then 1 else 0), (if x =? y then 0 else 1).
    rewrite eq_spec, neq_spec.
    destruct (Nat.eqb_spec x y), (Nat.eq_dec x y); repeat split; cbn; lia.
  - exists (if x <? y then 1 else 0), (if y <=? x then 1 else 0).
    rewrite lt_spec, geq_spec.
    destruct (Nat.ltb_spec x y), (Nat.leb_spec y x); repeat split; cbn; lia.
Qed.
End LibraryArithmetic.

(** ** Calls at the wrong number of arguments *)

Section ArgumentCounts.
Import Godel GodelSpec.

(** X11: the two-parameter functions [add], [mul], [exp], [sub], [geq] and
    [lt] raise [TypeError] when called with any other number of arguments
    than two. *)
Theorem binary_arity (args : list nat) (fuel : nat) :
  length args <> 2 ->
  add args fuel = Raise TypeError /\ mul args fuel = Raise TypeError /\
  exp args fuel = Raise TypeError /\ sub args fuel = Raise TypeError /\
  geq args fuel = Raise TypeError /\ lt args fuel = Raise TypeError.
Proof.
  intros H; destruct args as [| a [| b [| c args]]]; cbn in H;
    try (exfalso; apply H; reflexivity); repeat split.
Qed.

Lemma binary_arity_witness :
  length [1; 2; 3] <> 2 /\
  add [1; 2; 3] 0 = Raise TypeError /\ mul [1; 2; 3] 0 = Raise TypeError /\
  exp [1; 2; 3] 0 = Raise TypeError /\ sub [1; 2; 3] 0 = Raise TypeError /\
  geq [1; 2; 3] 0 = Raise TypeError /\ lt [1; 2; 3] 0 = Raise TypeError.
Proof.
  assert (H : length [1; 2; 3] <> 2) by (cbn; discriminate).
  split; [exact H |].
  exact (binary_arity [1; 2; 3] 0 H).
Defined.

(** X12: [incr], [id] and the [zero] defined first raise [TypeError] unless
    called with exactly one argument, whereas the [zero] and [one] the library
    uses, made by [const], return their constant for any arguments, none
    included. *)
Theorem unary_arity (args : list nat) (fuel : nat) :
  (length args <> 1 ->
   incr args fuel = Raise TypeError /\ id args fuel = Raise TypeError /\
   zero_builtin args fuel = Raise TypeError) /\
  zero args fuel = Val 0 /\ one args fuel = Val 1.
Proof.
  repeat split; destruct args as [| a [| b args]]; cbn in H;
    try (exfalso; apply H; reflexivity); reflexivity.
Qed.

Lemma unary_arity_witness :
  length (@nil nat) <> 1 /\
  incr [] 0 = Raise TypeError /\ id [] 0 = Raise TypeError /\
  zero_builtin [] 0 = Raise TypeError.
Proof.
  assert (H : length (@nil nat) <> 1) by (cbn; discriminate).
  split; [exact H |].
  exact (proj1 (unary_arity [] 0) H).
Defined.

Lemma is_zero_any (n : nat) (rest : list nat) fuel :
  is_zero (n :: rest) fuel = Val (match n with 0 => 1 | S _ => 0 end).
Proof.
  unfold is_zero; destruct n as [| n]; [reflexivity |].
  assert (H : exists r, rec one (comp zero []) (n :: rest) fuel = Val r).
  { induction n as [| n [r IH]]; [exists 1; reflexivity |].
    exists 0; rewrite (rec_S_val _ _ _ _ _ _ IH); reflexivity. }
  destruct H as [r Hr]; rewrite (rec_S_val _ _ _ _ _ _ Hr); reflexivity.
Qed.

Lemma sign_any (n : nat) (rest : list nat) fuel :
  sign (n :: rest) fuel = Val (match n with 0 => 0 | S _ => 1 end).
Proof.
  unfold sign; destruct n as [| n]; [reflexivity |].
  assert (H : exists r, rec zero (comp one []) (n :: rest) fuel = Val r).
  { induction n as [| n [r IH]]; [exists 0; reflexivity |].
    exists 1; rewrite (rec_S_val _ _ _ _ _ _ IH); reflexivity. }
  destruct H as [r Hr]; rewrite (rec_S_val _ _ _ _ _ _ Hr); reflexivity.
Qed.

(** X13: arguments past the expected ones are ignored by [is_zero] and
    [sign] (past the first) and by [max], [min] and [neq] (past the second),
    but [leq] and [eq] raise [TypeError] on a third argument, so that
    [neq(x, y, z)] returns where [eq(x, y, z)] raises. *)
Theorem extra_arguments (n x y z : nat) (rest : list nat) (fuel : nat) :
  is_zero (n :: rest) fuel = is_zero [n] fuel /\
  sign (n :: rest) fuel = sign [n] fuel /\
  max (x :: y :: rest) fuel = max [x; y] fuel /\
  min (x :: y :: rest) fuel = min [x; y] fuel /\
  neq (x :: y :: rest) fuel = neq [x; y] fuel /\
  leq (x :: y :: z :: rest) fuel = Raise TypeError /\
  eq (x :: y :: z :: rest) fuel = Raise TypeError.
Proof.
  assert (Hmax : max (x :: y :: rest) fuel = Val (Nat.max x y)).
  { unfold max; rewrite comp_vals with (vs := [x - y; y]).
    - rewrite add_spec; f_equal; lia.
    - repeat constructor.
      rewrite comp_vals with (vs := [x; y]) by (repeat constructor).
      apply sub_spec. }
  split; [rewrite is_zero_any, is_zero_spec; reflexivity |].
  split; [rewrite sign_any, sign_spec; reflexivity |].
  split; [rewrite Hmax, max_spec; reflexivity |].
  split.
  { rewrite min_spec; unfold min.
    rewrite comp_vals with (vs := [x + y; Nat.max x y]).
    - rewrite sub_spec; f_equal; lia.
    - repeat constructor.
      + rewrite comp_vals with (vs := [x; y]) by (repeat constructor).
        apply add_spec.
      + rewrite comp_vals with (vs := [x; y]) by (repeat constructor).
        apply max_spec. }
  split.
  { rewrite neq_spec; unfold neq.
    rewrite comp_vals with (vs := [1 - (if x =? y then 1 else 0)]).
    - rewrite sign_spec; destruct (x =? y); reflexivity.
    - repeat constructor.
      rewrite comp_vals with (vs := [1; if x =? y then 1 else 0]).
      + apply sub_spec.
      + repeat constructor.
        rewrite comp_vals with (vs := [x; y]) by (repeat constructor).
        apply eq_spec. }
  split; reflexivity.
Qed.

(** X14: [pred] called with further arguments returns [0] at [n = 0], where
    only the base case runs, and raises [TypeError] at every other [n], where
    its two-parameter step function is handed three or more arguments. *)
Theorem pred_extra_arguments (n a : nat) (rest : list nat) (fuel : nat) :
  pred (0 :: a :: rest) fuel = Val 0 /\
  pred (S n :: a :: rest) fuel = Raise TypeError.
Proof.
  split; [reflexivity |].
  unfold pred; induction n as [| n IH].
  - reflexivity.
  - rewrite rec_S; unfold bind; rewrite IH; reflexivity.
Qed.

(** X15: with fewer than two arguments [leq] and [eq] raise [TypeError],
    from the [sub] they call, while [max], [min] and [neq], which pick their
    arguments by projection, raise [IndexError]; [pred], [is_zero] and
    [sign], made by [rec], raise [TypeError] without any argument. *)
Theorem missing_arguments (x : nat) (fuel : nat) :
  (leq [x] fuel = Raise TypeError /\ leq [] fuel = Raise TypeError) /\
  (eq [x] fuel = Raise TypeError /\ eq [] fuel = Raise TypeError) /\
  (max [x] fuel = Raise IndexError /\ max [] fuel = Raise IndexError) /\
  (min [x] fuel = Raise IndexError /\ min [] fuel = Raise IndexError) /\
  (neq [x] fuel = Raise IndexError /\ neq [] fuel = Raise IndexError) /\
  pred [] fuel = Raise TypeError /\ is_zero [] fuel = Raise TypeError /\
  sign [] fuel = Raise TypeError.
Proof. repeat split. Qed.
End ArgumentCounts.

(** ** Recursion and minimisation over failing and library functions *)

Section RecursionAndSearch.
Import Godel GodelSpec.

Lemma rec_total_witness :
  (forall xs, exists v, returns (one xs) v) /\
  (forall args, exists v, returns (comp one [] args) v) /\
  forall n xs, exists v, returns (rec one (comp one []) (n :: xs)) v.
Proof.
  assert (Hf : forall xs, exists v, returns (one xs) v)
    by (intros xs; exists 1; exists 0; reflexivity).
  assert (Hg : forall args, exists v, returns (comp one [] args) v)
    by (intros args; exists 1; exists 0; reflexivity).
  split; [exact Hf | split; [exact Hg |]].
  exact (rec_total one (comp one []) Hf Hg).
Defined.

(** X17: when the base case [f(xs)] does not return, neither does
    [rec(f, g)(n, xs)] for any [n], and it fails the way [f] does: it raises
    what [f] raises, runs forever if [f] does, and [g] is never entered. *)
Theorem rec_base_failure (f g : fn) (n : nat) (xs : list nat) (fuel : nat) :
  (forall v, f xs fuel <> Val v) ->
  rec f g (n :: xs) fuel = f xs fuel.
Proof.
  intros Hf; induction n as [| n IH]; [reflexivity |].
  rewrite rec_S; unfold bind; rewrite IH.
  destruct (f xs fuel) as [v | e |] eqn:E;
    [exfalso; exact (Hf v eq_refl) | |]; reflexivity.
Qed.

Lemma rec_base_failure_witness :
  (forall v, id [] 0 <> Val v) /\
  rec id add_step (4 :: []) 0 = Raise TypeError.
Proof.
  assert (Hf : forall v, id [] 0 <> Val v) by (intros v; discriminate).
  split; [exact Hf |].
  exact (rec_base_failure id add_step 4 [] 0 Hf).
Defined.

Lemma mu_raises_witness :
  (forall k, k < 1 -> exists v, returns (comp incr [pred] (k :: [5])) (S v)) /\
  raises (comp incr [pred] (1 :: [5])) TypeError /\
  raises (mu (comp incr [pred]) [5]) TypeError.
Proof.
  assert (Hlow : forall k, k < 1 ->
            exists v, returns (comp incr [pred] (k :: [5])) (S v)).
  { intros k Hk; exists 0; exists 0; intros fuel _.
    destruct k as [| k]; [reflexivity | lia]. }
  assert (He : raises (comp incr [pred] (1 :: [5])) TypeError)
    by (exists 0; reflexivity).
  split; [exact Hlow | split; [exact He |]].
  exact (mu_raises (comp incr [pred]) [5] 1 TypeError Hlow He).
Defined.

Lemma sub_3_n_stable : stable_fn sub_3_n.
Proof.
  intros [| n [| m args]] fuel fuel' _ _; try reflexivity.
  unfold sub_3_n, lam1; rewrite !sub_spec; reflexivity.
Qed.

Lemma mu_sub_3_n : returns (mu sub_3_n []) 3.
Proof.
  apply mu_returns_at.
  - intros k Hk; exists (2 - k); exists 0; intros fuel _.
    unfold sub_3_n, lam1; rewrite sub_spec; f_equal; lia.
  - exists 0; reflexivity.
Qed.

Lemma mu_returns_inv_witness :
  stable_fn sub_3_n /\
  returns (mu sub_3_n []) 3 /\
  returns (sub_3_n [3]) 0 /\
  forall k, k < 3 -> exists v, returns (sub_3_n [k]) (S v).
Proof.
  split; [exact sub_3_n_stable | split; [exact mu_sub_3_n |]].
  exact (mu_returns_inv sub_3_n [] 3 sub_3_n_stable mu_sub_3_n).
Defined.

(** X20: searching with the library's comparisons gives their bounds back:
    [mu(neq)(x)] and [mu(lt)(x)] return [x], the first [n] that is not below
    or different from [x], and [mu(leq)(x)] returns [x + 1], the first [n]
    above [x]. *)
Theorem mu_of_comparisons (x : nat) :
  returns (mu neq [x]) x /\
  returns (mu lt [x]) x /\
  returns (mu leq [x]) (x + 1).
Proof.
  repeat split; apply mu_returns_at.
  - intros k Hk; exists 0; exists 0; intros fuel _; rewrite neq_spec.
    destruct (Nat.eqb_spec k x); [lia | reflexivity].
  - exists 0; intros fuel _; rewrite neq_spec, Nat.eqb_refl; reflexivity.
  - intros k Hk; exists 0; exists 0; intros fuel _; rewrite lt_spec.
    destruct (Nat.ltb_spec k x); [reflexivity | lia].
  - exists 0; intros fuel _; rewrite lt_spec, Nat.ltb_irrefl; reflexivity.
  - intros k Hk; exists 0; exists 0; intros fuel _; rewrite leq_spec.
    destruct (Nat.leb_spec k x); [reflexivity | lia].
  - exists 0; intros fuel _; rewrite leq_spec.
    destruct (Nat.leb_spec (x + 1) x); [lia | reflexivity].
Qed.

(** X21: [mu] of a function that always returns need not return:
    [mu(add)(x)] looks for an [n] with [n + x = 0], so it returns [0] at
    [x = 0] and runs forever at every other [x]; [mu(exp)(x)] looks for an
    [n] with [n ^ x = 0], so it runs forever at [x = 0], where every power is
    [1], and returns [0] at every other [x]. *)
Theorem mu_of_total_is_partial (x : nat) :
  returns (mu add [0]) 0 /\ diverges (mu add [S x]) /\
  diverges (mu exp [0]) /\ returns (mu exp [S x]) 0.
Proof.
  repeat split.
  - apply mu_returns_at; [intros k Hk; lia | exists 0; reflexivity].
  - intros fuel; unfold mu; apply mu_loop_never.
    + intros k; rewrite add_spec, Nat.add_succ_r; discriminate.
    + intros k e; rewrite add_spec; discriminate.
  - intros fuel; unfold mu; apply mu_loop_never.
    + intros k; rewrite exp_spec; discriminate.
    + intros k e; rewrite exp_spec; discriminate.
  - apply mu_returns_at; [intros k Hk; lia |].
    exists 0; intros fuel _; rewrite exp_spec, Nat.pow_0_l by discriminate.
    reflexivity.
Qed.
End RecursionAndSearch.
